(** * c_lib.c: the C library of the "C interop without a build system" example

    The translation unit [c_interop/c_lib_no_buildsystem/c_lib.c] exports two
    functions:

      - [int32_t square(int32_t x)], which returns [x * x];
      - [void talk_from_c()], which prints two lines with [printf].

    Integers are modelled as [Z] with the 32-bit wrap-around written out.
    ISO C leaves a signed product that does not fit its type undefined; the
    object file the header comment asks for ([zig cc -c c_lib.c -O3]) multiplies
    with the machine's 32-bit multiplier, and that is the arithmetic embedded
    here: the low 32 bits of the product, read as two's complement.  Wherever
    the product fits in 32 bits the model and ISO C agree (lemma
    [Int32Facts.repr_small]).

    Standard output is modelled as the string of characters written so far,
    threaded through a small state-and-failure monad. *)

From Stdlib Require Import ZArith Lia List.
From Stdlib Require Import Strings.Ascii Strings.String Numbers.DecimalString.
Import ListNotations.

Local Open Scope Z_scope.

(* ================================================================== *)
(** ** 32-bit two's-complement integers ([int32_t] of <stdint.h>) *)

Module Int32.

Definition wordsize : Z := 32.
Definition modulus : Z := 2 ^ wordsize.
Definition half_modulus : Z := 2 ^ (wordsize - 1).
Definition min_signed : Z := - half_modulus.
Definition max_signed : Z := half_modulus - 1.

(** The values an [int32_t] can hold. *)
Definition in_range (z : Z) : Prop := min_signed <= z <= max_signed.

Definition in_rangeb (z : Z) : bool :=
  (min_signed <=? z) && (z <=? max_signed).

(** The 32-bit pattern of an integer: its residue in [0, 2^32). *)
Definition unsigned (z : Z) : Z := z mod modulus.

(** A 32-bit pattern read as two's complement. *)
Definition signed (u : Z) : Z :=
  if u <? half_modulus then u else u - modulus.

(** What a 32-bit register holds after an integer was stored in it. *)
Definition repr (z : Z) : Z := signed (unsigned z).

(** [a * b] on [int32_t] operands. *)
Definition mul (a b : Z) : Z := repr (a * b).

(** [- a] on an [int32_t] operand, as two's-complement negation. *)
Definition neg (a : Z) : Z := repr (- a).

End Int32.

(* ================================================================== *)
(** ** The arithmetic export *)

(** [#define MY_NUM 4] *)
Definition MY_NUM : Z := 4.

(** [int32_t square(int32_t x) { return x * x; }] *)
Definition square (x : Z) : Z := Int32.mul x x.

(* ================================================================== *)
(** ** Standard output and [printf] *)

Definition LF : string := String "010"%char EmptyString.

(** The text written to standard output so far. *)
Definition stdout : Type := string.

(** Computations over standard output; [None] stands for a call whose
    behaviour C leaves undefined. *)
Definition Stdio (A : Type) : Type := stdout -> option (A * stdout).

Definition ret {A : Type} (a : A) : Stdio A :=
  fun out => Some (a, out).

Definition bind {A B : Type} (m : Stdio A) (k : A -> Stdio B) : Stdio B :=
  fun out =>
    match m out with
    | Some (a, out') => k a out'
    | None => None
    end.

Notation "x <- m ;; k" := (bind m (fun x => k))
  (at level 61, m at next level, right associativity).

(** The [%d] conversion: decimal digits, with a leading minus sign for a
    negative argument. *)
Definition conv_d (v : Z) : string := NilEmpty.string_of_int (Z.to_int v).

(** Expansion of a format string against its arguments.  The conversions
    understood are [%d] and [%%]; a [%d] without an argument left, a dangling
    [%] or any other conversion is [None].  Surplus arguments are ignored, as
    in C. *)
Fixpoint format (fmt : string) (args : list Z) : option string :=
  match fmt with
  | EmptyString => Some EmptyString
  | String c rest =>
      if Ascii.eqb c "%"%char then
        match rest with
        | EmptyString => None
        | String d rest' =>
            if Ascii.eqb d "d"%char then
              match args with
              | a :: args' =>
                  option_map (append (conv_d a)) (format rest' args')
              | [] => None
              end
            else if Ascii.eqb d "%"%char then
              option_map (String "%"%char) (format rest' args)
            else None
        end
      else option_map (String c) (format rest args)
  end.

(** [printf(fmt, args...)]: appends the expansion to standard output and
    returns the number of characters written. *)
Definition printf (fmt : string) (args : list Z) : Stdio Z :=
  fun out =>
    match format fmt args with
    | Some s => Some (Z.of_nat (String.length s), (out ++ s)%string)
    | None => None
    end.

(** [void talk_from_c()] *)
Definition talk_from_c : Stdio unit :=
  _ <- printf ("Hi! This is being printed from a C library!!" ++ LF) [] ;;
  _ <- printf ("C says: square of %d is %d" ++ LF) [MY_NUM; square MY_NUM] ;;
  ret tt.

(** The lines of a text: maximal runs of characters other than line feed,
    each ended by a line feed (the last one possibly by the end of the
    text). *)
Fixpoint split_lines (s : string) : list string :=
  match s with
  | EmptyString => []
  | String c rest =>
      if Ascii.eqb c "010"%char then EmptyString :: split_lines rest
      else
        match split_lines rest with
        | [] => [String c EmptyString]
        | l :: ls => String c l :: ls
        end
  end.

(** [n] calls of [talk_from_c] one after the other, as a caller that invokes
    the export [n] times performs them. *)
Fixpoint talk_repeatedly (n : nat) : Stdio unit :=
  match n with
  | O => ret tt
  | S k => _ <- talk_from_c ;; talk_repeatedly k
  end.

(** [n] copies of a text, one after the other. *)
Fixpoint copies (n : nat) (s : string) : string :=
  match n with
  | O => EmptyString
  | S k => (s ++ copies k s)%string
  end.

(* ================================================================== *)
(** ** Facts about 32-bit arithmetic *)

Module Int32Facts.
Import Int32.

Lemma modulus_val : modulus = 4294967296.
Proof. reflexivity. Qed.

Lemma half_modulus_val : half_modulus = 2147483648.
Proof. reflexivity. Qed.

Lemma in_rangeb_spec (z : Z) : in_rangeb z = true <-> in_range z.
Proof.
  unfold in_rangeb, in_range.
  rewrite Bool.andb_true_iff, !Z.leb_le. tauto.
Qed.

Lemma in_rangeb_false (z : Z) : in_rangeb z = false <-> ~ in_range z.
Proof.
  rewrite <- in_rangeb_spec. destruct (in_rangeb z); split; congruence.
Qed.

Lemma unsigned_bounds (z : Z) : 0 <= unsigned z < modulus.
Proof. unfold unsigned. apply Z.mod_pos_bound. rewrite modulus_val. lia. Qed.

(** Reading a pattern as two's complement stays within [int32_t]. *)
Lemma signed_in_range (u : Z) : 0 <= u < modulus -> in_range (signed u).
Proof.
  unfold signed, in_range, min_signed, max_signed.
  rewrite modulus_val, half_modulus_val. intros Hu.
  destruct (Z.ltb_spec u 2147483648); lia.
Qed.

(** ... and changes the pattern by a multiple of [2^32] only. *)
Lemma signed_eqm (u : Z) : signed u mod modulus = u mod modulus.
Proof.
  unfold signed. destruct (Z.ltb_spec u half_modulus); [reflexivity|].
  replace (u - modulus) with (u + (-1) * modulus) by ring.
  apply Z.mod_add. rewrite modulus_val. lia.
Qed.

Lemma repr_in_range (z : Z) : in_range (repr z).
Proof. apply signed_in_range, unsigned_bounds. Qed.

Lemma repr_eqm (z : Z) : repr z mod modulus = z mod modulus.
Proof.
  unfold repr. rewrite signed_eqm. unfold unsigned.
  apply Z.mod_mod. rewrite modulus_val. lia.
Qed.

(** Two integers of [int32_t] range with the same 32-bit pattern are
    equal. *)
Lemma in_range_eqm_inj (a b : Z) :
  in_range a -> in_range b -> a mod modulus = b mod modulus -> a = b.
Proof.
  unfold in_range, min_signed, max_signed.
  rewrite modulus_val, half_modulus_val. intros Ha Hb Hab.
  pose proof (Z.div_mod a 4294967296 ltac:(lia)) as Da.
  pose proof (Z.div_mod b 4294967296 ltac:(lia)) as Db.
  pose proof (Z.mod_pos_bound a 4294967296 ltac:(lia)).
  pose proof (Z.mod_pos_bound b 4294967296 ltac:(lia)).
  assert (a / 4294967296 = b / 4294967296) by lia.
  lia.
Qed.

(** Storing a value that fits leaves it unchanged: on such values the
    wrap-around model and exact integer arithmetic coincide. *)
Lemma repr_small (z : Z) : in_range z -> repr z = z.
Proof.
  intros Hz. apply in_range_eqm_inj;
    [apply repr_in_range | exact Hz | apply repr_eqm].
Qed.

(** A value outside the range is changed by the store. *)
Lemma repr_wraps (z : Z) : ~ in_range z -> repr z <> z.
Proof.
  intros Hz E. apply Hz. rewrite <- E. apply repr_in_range.
Qed.

(** The stored value depends on the pattern only. *)
Lemma repr_congr (a b : Z) :
  a mod modulus = b mod modulus -> repr a = repr b.
Proof. unfold repr, unsigned. intros ->. reflexivity. Qed.

(** The low 32 bits of the stored value are those of the integer. *)
Lemma repr_testbit (z i : Z) :
  0 <= i < wordsize -> Z.testbit (repr z) i = Z.testbit z i.
Proof.
  intros Hi.
  rewrite <- (Z.mod_pow2_bits_low (repr z) wordsize i) by lia.
  rewrite <- (Z.mod_pow2_bits_low z wordsize i) by lia.
  fold modulus. rewrite repr_eqm. reflexivity.
Qed.

Lemma mul_eqm (a b : Z) : mul a b mod modulus = (a * b) mod modulus.
Proof. apply repr_eqm. Qed.

Lemma neg_eqm (a : Z) : neg a mod modulus = (- a) mod modulus.
Proof. apply repr_eqm. Qed.

(** Negation is an involution on patterns, so it cancels in a square. *)
Lemma neg_mul_neg (a : Z) : mul (neg a) (neg a) = mul a a.
Proof.
  unfold mul. apply repr_congr.
  rewrite Z.mul_mod by (rewrite modulus_val; lia).
  rewrite neg_eqm.
  rewrite <- Z.mul_mod by (rewrite modulus_val; lia).
  f_equal. ring.
Qed.

Lemma neg_min_signed : neg min_signed = min_signed.
Proof. reflexivity. Qed.

End Int32Facts.

(* ================================================================== *)
(** ** Facts about standard output *)

Lemma append_assoc (a b c : string) :
  ((a ++ b) ++ c)%string = (a ++ (b ++ c))%string.
Proof.
  induction a as [|ch a IH]; simpl; [reflexivity | now rewrite IH].
Qed.

(** A [printf] whose format expands appends the expansion and nothing
    else. *)
Lemma printf_appends (fmt : string) (args : list Z) (s : string) (out : stdout) :
  format fmt args = Some s ->
  printf fmt args out = Some (Z.of_nat (String.length s), (out ++ s)%string).
Proof. unfold printf. intros ->. reflexivity. Qed.

Lemma bind_some {A B : Type} (m : Stdio A) (k : A -> Stdio B)
      (out out' : stdout) (a : A) :
  m out = Some (a, out') -> bind m k out = k a out'.
Proof. unfold bind. intros ->. reflexivity. Qed.

Ltac int32_range :=
  unfold Int32.in_range, Int32.min_signed, Int32.max_signed;
  rewrite ?Int32Facts.half_modulus_val; lia.

(* ================================================================== *)
(** ** Properties of [square] *)

(** C1. For every 32-bit signed integer [x], [square x] is the product
    [x * x] computed in 32-bit two's-complement arithmetic: it is an
    [int32_t] value, it is congruent to the integer product modulo [2^32], its
    32 bits are the low 32 bits of the integer product, and it is the integer
    product itself whenever that fits in 32 bits. *)
Theorem square_is_int32_product (x : Z) :
  Int32.in_range x ->
  Int32.in_range (square x)
  /\ square x mod 2 ^ 32 = (x * x) mod 2 ^ 32
  /\ (forall i, 0 <= i < 32 -> Z.testbit (square x) i = Z.testbit (x * x) i)
  /\ (Int32.in_range (x * x) -> square x = x * x).
Proof.
  intros _. unfold square, Int32.mul. repeat split.
  - apply Int32Facts.repr_in_range.
  - apply Int32Facts.repr_in_range.
  - apply Int32Facts.repr_eqm.
  - intros i Hi. apply Int32Facts.repr_testbit. exact Hi.
  - apply Int32Facts.repr_small.
Qed.

Lemma square_is_int32_product_witness :
  Int32.in_range 46340
  /\ (Int32.in_range (square 46340)
      /\ square 46340 mod 2 ^ 32 = (46340 * 46340) mod 2 ^ 32
      /\ (forall i, 0 <= i < 32 ->
                    Z.testbit (square 46340) i = Z.testbit (46340 * 46340) i)
      /\ (Int32.in_range (46340 * 46340) -> square 46340 = 46340 * 46340)).
Proof.
  split; [int32_range | apply (square_is_int32_product 46340); int32_range].
Defined.

(** C9. For every 32-bit signed integer [x], [square (-x) = square x], where
    [-x] is 32-bit two's-complement negation ([Int32.neg], which maps
    [INT32_MIN] to itself). *)
Theorem square_neg (x : Z) :
  Int32.in_range x -> square (Int32.neg x) = square x.
Proof.
  intros _. unfold square. apply Int32Facts.neg_mul_neg.
Qed.

Lemma square_neg_witness :
  Int32.in_range (-2147483648)
  /\ square (Int32.neg (-2147483648)) = square (-2147483648).
Proof.
  split; [int32_range | apply (square_neg (-2147483648)); int32_range].
Defined.

(** C10. There is a 32-bit signed integer whose [square] is negative:
    [square 46341 = -2147479015], although the integer square of 46341 is
    positive; the product wrapped modulo [2^32]. *)
Theorem square_46341_negative :
  Int32.in_range 46341
  /\ square 46341 = -2147479015
  /\ square 46341 < 0
  /\ 0 <= 46341 * 46341
  /\ square 46341 = 46341 * 46341 - 2 ^ 32
  /\ exists x, Int32.in_range x /\ square x < 0.
Proof.
  assert (R : Int32.in_range 46341) by int32_range.
  assert (E : square 46341 = -2147479015) by reflexivity.
  repeat split; try (rewrite E; lia); try exact E; try apply R.
  exists 46341. split; [exact R | rewrite E; lia].
Qed.

(* ================================================================== *)
(** ** Properties of [talk_from_c] *)

(** C8. Every call of [talk_from_c], whatever was written to standard output
    before, appends exactly two lines: "Hi! This is being printed from a C
    library!!" and "C says: square of 4 is 16" ([MY_NUM] is 4 and
    [square MY_NUM] is 16); a second call appends the same two lines again. *)
Theorem talk_from_c_prints_two_lines :
  let line1 := "Hi! This is being printed from a C library!!"%string in
  let line2 := "C says: square of 4 is 16"%string in
  let text := (line1 ++ LF ++ line2 ++ LF)%string in
  MY_NUM = 4
  /\ square MY_NUM = 16
  /\ (forall out : stdout, talk_from_c out = Some (tt, (out ++ text)%string))
  /\ (forall out : stdout,
         (_ <- talk_from_c ;; talk_from_c) out
         = Some (tt, (out ++ text ++ text)%string))
  /\ split_lines text = [line1; line2].
Proof.
  intros line1 line2 text.
  assert (T : forall out : stdout,
             talk_from_c out = Some (tt, (out ++ text)%string)).
  { intros out. unfold talk_from_c.
    erewrite bind_some by (apply printf_appends; reflexivity).
    erewrite bind_some by (apply printf_appends; reflexivity).
    unfold ret. rewrite append_assoc. reflexivity. }
  repeat split; try reflexivity; try exact T.
  intros out. erewrite bind_some by apply T.
  rewrite T, append_assoc. reflexivity.
Qed.

(* ================================================================== *)
(** ** Further facts about 32-bit products *)

Module SquareFacts.
Import Int32 Int32Facts.

Lemma modulus_pos : 0 < modulus.
Proof. rewrite modulus_val. lia. Qed.

(** The stored product depends on the patterns of the factors only. *)
Lemma repr_mul_congr (a b a' b' : Z) :
  a mod modulus = a' mod modulus ->
  b mod modulus = b' mod modulus ->
  repr (a * b) = repr (a' * b').
Proof.
  intros Ha Hb. apply repr_congr.
  rewrite (Z.mul_mod a b), (Z.mul_mod a' b') by (rewrite modulus_val; lia).
  rewrite Ha, Hb. reflexivity.
Qed.

(** A stored value is zero exactly when the pattern is. *)
Lemma repr_zero_iff (z : Z) : repr z = 0 <-> z mod modulus = 0.
Proof.
  split; intros H.
  - rewrite <- repr_eqm, H. reflexivity.
  - rewrite (repr_congr z 0); [reflexivity | rewrite H; reflexivity].
Qed.

(** Residues modulo a divisor of [2^32] survive the store. *)
Lemma repr_mod_divisor (z d : Z) :
  0 < d -> (d | modulus) -> repr z mod d = z mod d.
Proof.
  intros _ Hdiv.
  rewrite <- (Z.mod_mod_divide (repr z) modulus d Hdiv).
  rewrite <- (Z.mod_mod_divide z modulus d Hdiv).
  rewrite repr_eqm. reflexivity.
Qed.

(** If [4^n] divides a square, [2^n] divides its root. *)
Lemma pow2_divides_root (n : nat) :
  forall x : Z, (2 ^ (2 * Z.of_nat n) | x * x) -> (2 ^ Z.of_nat n | x).
Proof.
  induction n as [|n IH]; intros x H.
  - simpl. apply Z.divide_1_l.
  - replace (2 ^ (2 * Z.of_nat (S n))) with (4 * 2 ^ (2 * Z.of_nat n)) in H.
    2:{ replace (2 * Z.of_nat (S n)) with (2 * Z.of_nat n + 2) by lia.
        rewrite Z.pow_add_r by lia. change (2 ^ 2) with 4. ring. }
    replace (2 ^ Z.of_nat (S n)) with (2 * 2 ^ Z.of_nat n).
    2:{ rewrite Nat2Z.inj_succ, Z.pow_succ_r by lia. reflexivity. }
    assert (Ev : Z.even x = true).
    { destruct H as [k Hk].
      assert (E : Z.even (x * x) = true).
      { rewrite Hk. replace (k * (4 * 2 ^ (2 * Z.of_nat n)))
          with (2 * (2 * k * 2 ^ (2 * Z.of_nat n))) by ring.
        rewrite Z.even_mul. reflexivity. }
      rewrite Z.even_mul, Bool.orb_diag in E. exact E. }
    apply Z.even_spec in Ev. destruct Ev as [y ->].
    apply Z.mul_divide_mono_l. apply IH.
    replace (2 * y * (2 * y)) with (4 * (y * y)) in H by ring.
    apply Z.mul_divide_cancel_l in H; [exact H | lia].
Qed.

(** Squares are 0, 1 or 4 modulo 8. *)
Lemma sqr_mod8 (x : Z) :
  (x * x) mod 8 = 0 \/ (x * x) mod 8 = 1 \/ (x * x) mod 8 = 4.
Proof.
  rewrite Z.mul_mod by lia.
  pose proof (Z.mod_pos_bound x 8 ltac:(lia)) as B.
  assert (C : x mod 8 = 0 \/ x mod 8 = 1 \/ x mod 8 = 2 \/ x mod 8 = 3 \/
              x mod 8 = 4 \/ x mod 8 = 5 \/ x mod 8 = 6 \/ x mod 8 = 7) by lia.
  destruct C as [C|[C|[C|[C|[C|[C|[C|C]]]]]]]; rewrite C; cbv; auto.
Qed.

End SquareFacts.

(** Each call of [talk_from_c] appends the same text and succeeds. *)
Lemma talk_from_c_appends (out : stdout) :
  talk_from_c out
  = Some (tt, (out ++ "Hi! This is being printed from a C library!!" ++ LF
                   ++ "C says: square of 4 is 16" ++ LF)%string).
Proof.
  unfold talk_from_c.
  erewrite bind_some by (apply printf_appends; reflexivity).
  erewrite bind_some by (apply printf_appends; reflexivity).
  unfold ret. rewrite append_assoc. reflexivity.
Qed.

Lemma append_empty_r (s : string) : (s ++ EmptyString)%string = s.
Proof. induction s as [|c s IH]; simpl; [reflexivity | now rewrite IH]. Qed.

(* ================================================================== *)
(** ** Further properties of [square] *)

(** X1. [square] returns the true integer square exactly on the inputs from
    -46340 to 46340: inside that interval the result is [x * x] (and so is not
    negative), outside it the result differs from [x * x]. *)
Theorem square_exact_iff (x : Z) :
  Int32.in_range x ->
  (square x = x * x <-> -46340 <= x <= 46340)
  /\ (-46340 <= x <= 46340 -> 0 <= square x <= 2147395600).
Proof.
  intros _.
  assert (Small : -46340 <= x <= 46340 -> square x = x * x).
  { intros B. apply Int32Facts.repr_small.
    unfold Int32.in_range, Int32.min_signed, Int32.max_signed.
    rewrite Int32Facts.half_modulus_val. nia. }
  split; [split|].
  - intros E.
    pose proof (Int32Facts.repr_in_range (x * x)) as R.
    fold (Int32.mul x x) in R. fold (square x) in R. rewrite E in R.
    unfold Int32.in_range, Int32.min_signed, Int32.max_signed in R.
    rewrite Int32Facts.half_modulus_val in R. nia.
  - exact Small.
  - intros B. rewrite (Small B). nia.
Qed.

Lemma square_exact_iff_witness :
  Int32.in_range (-46340)
  /\ ((square (-46340) = -46340 * -46340 <-> -46340 <= -46340 <= 46340)
      /\ (-46340 <= -46340 <= 46340 -> 0 <= square (-46340) <= 2147395600)).
Proof.
  split; [int32_range | apply (square_exact_iff (-46340)); int32_range].
Defined.

(** X2. [square x] is zero exactly when [x] is a multiple of 65536: a zero
    result does not mean a zero argument. *)
Theorem square_zero_iff (x : Z) :
  Int32.in_range x ->
  (square x = 0 <-> x mod 65536 = 0).
Proof.
  intros _. unfold square, Int32.mul.
  rewrite SquareFacts.repr_zero_iff, Int32Facts.modulus_val.
  rewrite !Z.mod_divide by lia. split; intros H.
  - apply (SquareFacts.pow2_divides_root 16). exact H.
  - destruct H as [k ->]. exists (k * k). ring.
Qed.

Lemma square_zero_iff_witness :
  Int32.in_range 65536 /\ (square 65536 = 0 <-> 65536 mod 65536 = 0).
Proof.
  split; [int32_range | apply (square_zero_iff 65536); int32_range].
Defined.

(** X3. The result of [square] is 0, 1 or 4 modulo 8, as a true square is;
    so [square] never returns -1, nor any other value that is 2, 3, 5, 6 or 7
    modulo 8. *)
Theorem square_residue_mod8 (x : Z) :
  Int32.in_range x ->
  (square x mod 8 = 0 \/ square x mod 8 = 1 \/ square x mod 8 = 4)
  /\ square x <> -1.
Proof.
  intros _.
  assert (R : square x mod 8 = (x * x) mod 8).
  { unfold square, Int32.mul. apply SquareFacts.repr_mod_divisor; [lia|].
    rewrite Int32Facts.modulus_val. exists 536870912. reflexivity. }
  pose proof (SquareFacts.sqr_mod8 x) as S. rewrite <- R in S.
  split; [exact S|].
  intros E. rewrite E in S. change ((-1) mod 8) with 7 in S. lia.
Qed.

Lemma square_residue_mod8_witness :
  Int32.in_range 46341
  /\ ((square 46341 mod 8 = 0 \/ square 46341 mod 8 = 1
       \/ square 46341 mod 8 = 4)
      /\ square 46341 <> -1).
Proof.
  split; [int32_range | apply (square_residue_mod8 46341); int32_range].
Defined.

(** X4. [square] keeps parity: the result is odd exactly when the argument
    is. *)
Theorem square_parity (x : Z) :
  Int32.in_range x -> Z.odd (square x) = Z.odd x.
Proof.
  intros _. unfold square, Int32.mul.
  rewrite <- (Z.bit0_odd (Int32.repr (x * x))).
  rewrite Int32Facts.repr_testbit by (unfold Int32.wordsize; lia).
  rewrite Z.bit0_odd, Z.odd_mul. apply Bool.andb_diag.
Qed.

Lemma square_parity_witness :
  Int32.in_range 2147483647
  /\ Z.odd (square 2147483647) = Z.odd 2147483647.
Proof.
  split; [int32_range | apply (square_parity 2147483647); int32_range].
Defined.

(** X5. [square] ignores the sign bit of its argument: two 32-bit integers
    that differ by a multiple of [2^31] have the same square. *)
Theorem square_ignores_sign_bit (x y : Z) :
  Int32.in_range x -> Int32.in_range y ->
  (x - y) mod 2147483648 = 0 ->
  square x = square y.
Proof.
  intros _ _ H. apply Z.mod_divide in H; [|lia]. destruct H as [k Hk].
  assert (E : x = y + k * 2147483648) by lia. subst x.
  unfold square, Int32.mul. apply Int32Facts.repr_congr.
  rewrite Int32Facts.modulus_val.
  replace ((y + k * 2147483648) * (y + k * 2147483648))
    with (y * y + (y * k + k * k * 1073741824) * 4294967296) by ring.
  apply Z.mod_add. lia.
Qed.

Lemma square_ignores_sign_bit_witness :
  Int32.in_range 3 /\ Int32.in_range (-2147483645)
  /\ (3 - -2147483645) mod 2147483648 = 0
  /\ square 3 = square (-2147483645).
Proof.
  split; [int32_range|]. split; [int32_range|]. split; [reflexivity|].
  apply (square_ignores_sign_bit 3 (-2147483645));
    [int32_range | int32_range | reflexivity].
Defined.

(** X6. Squaring twice gives the fourth power wrapped to 32 bits: the wrap
    of the inner product does not disturb the outer one. *)
Theorem square_square (x : Z) :
  Int32.in_range x ->
  square (square x) = Int32.repr (x * x * x * x)
  /\ (-215 <= x <= 215 -> square (square x) = x * x * x * x).
Proof.
  intros _.
  assert (E : square (square x) = Int32.repr (x * x * x * x)).
  { unfold square, Int32.mul.
    rewrite <- Z.mul_assoc.
    apply SquareFacts.repr_mul_congr; apply Int32Facts.repr_eqm. }
  split; [exact E|].
  intros B. rewrite E. apply Int32Facts.repr_small.
  unfold Int32.in_range, Int32.min_signed, Int32.max_signed.
  rewrite Int32Facts.half_modulus_val.
  assert (0 <= x * x <= 46225) by nia. nia.
Qed.

Lemma square_square_witness :
  Int32.in_range 215
  /\ (square (square 215) = Int32.repr (215 * 215 * 215 * 215)
      /\ (-215 <= 215 <= 215 -> square (square 215) = 215 * 215 * 215 * 215)).
Proof.
  split; [int32_range | apply (square_square 215); int32_range].
Defined.

(* ================================================================== *)
(** ** Further properties of [talk_from_c] *)

(** X7. Calling [talk_from_c] [n] times in a row never fails and appends [n]
    copies of its two lines to whatever standard output held before; nothing
    already written is altered. *)
Theorem talk_repeatedly_output (n : nat) (out : stdout) :
  talk_repeatedly n out
  = Some (tt, (out ++ copies n
                 ("Hi! This is being printed from a C library!!" ++ LF
                  ++ "C says: square of 4 is 16" ++ LF))%string).
Proof.
  remember ("Hi! This is being printed from a C library!!" ++ LF
            ++ "C says: square of 4 is 16" ++ LF)%string as text eqn:Ht.
  assert (T : forall o : stdout, talk_from_c o = Some (tt, (o ++ text)%string))
    by (intros o; subst text; apply talk_from_c_appends).
  clear Ht. revert out. induction n as [|n IH]; intros out.
  - cbn [talk_repeatedly copies]. unfold ret.
    rewrite append_empty_r. reflexivity.
  - cbn [talk_repeatedly copies]. erewrite bind_some by apply T.
    rewrite IH, append_assoc. reflexivity.
Qed.
